(** * GTM Copilot API: the service bootstrap of [api/app/main.py]

  The module builds a FastAPI application, derives the list of permitted
  cross-origin origins from the environment variable [ALLOWED_ORIGINS],
  registers the CORS middleware with it and exposes [GET /health].

  A Python [str] is a sequence of Unicode code points; it is embedded as a
  list of code points ([N]).  [os.environ] and the dictionary returned by
  the handler are finite maps.  Module-level statements and the handler are
  written with explicit state passing over the module's globals. *)

From Stdlib Require Import NArith Ascii String.
From stdpp Require Import base option list gmap fin_maps.

Local Open Scope N_scope.

(** ** Python strings *)

Module Py.

Abbreviation char := N.
Abbreviation str := (list N).

(** A string literal of the source (all of them are ASCII). *)
Definition lit (s : string) : str :=
  N_of_ascii <$> list_ascii_of_string s.

(** [Py_UNICODE_ISSPACE]: the code points that [str.strip()] removes when it
    is called without an argument. *)
Definition isspace (c : char) : bool :=
  ((0x09 <=? c) && (c <=? 0x0D))
  || ((0x1C <=? c) && (c <=? 0x20))
  || (c =? 0x85) || (c =? 0xA0) || (c =? 0x1680)
  || ((0x2000 <=? c) && (c <=? 0x200A))
  || (c =? 0x2028) || (c =? 0x2029) || (c =? 0x202F)
  || (c =? 0x205F) || (c =? 0x3000).

Fixpoint dropwhile {A} (p : A → bool) (l : list A) : list A :=
  match l with
  | [] => []
  | x :: l' => if p x then dropwhile p l' else l
  end.

(** [s.lstrip()], [s.rstrip()], [s.strip()] *)
Definition lstrip (s : str) : str := dropwhile isspace s.
Definition rstrip (s : str) : str := reverse (dropwhile isspace (reverse s)).
Definition strip (s : str) : str := rstrip (lstrip s).

(** [s.split(sep)] for a separator of one character: the pieces between
    the occurrences of [sep], empty pieces included; [n] occurrences give
    [n + 1] pieces, so the empty string gives one empty piece. *)
Fixpoint split (sep : char) (s : str) : list str :=
  match s with
  | [] => [[]]
  | c :: s' =>
      if c =? sep then [] :: split sep s'
      else match split sep s' with
           | [] => [[c]]
           | p :: ps => (c :: p) :: ps
           end
  end.

(** Truth value testing: [bool(x)], as used by [if x] and [x or y]. *)
Class Truthy (A : Type) := truthy : A → bool.
Global Instance list_truthy {A} : Truthy (list A) :=
  λ l, match l with [] => false | _ => true end.

(** [x or y] *)
Definition por {A} `{Truthy A} (x y : A) : A := if truthy x then x else y.

(** [os.environ], and [os.getenv(key, default)] *)
Abbreviation environ := (gmap (list N) (list N)).

Definition getenv (env : environ) (key default : str) : str :=
  match env !! key with
  | Some v => v
  | None => default
  end.

End Py.

Import Py.

(** ** The application object

    The part of FastAPI that the module touches: the constructor, the list of
    user middleware, and the table of routes added through [@app.get]. *)

(** The keyword arguments given to [CORSMiddleware]. *)
Record CORSMiddleware := {
  allow_origins : list str;
  allow_credentials : bool;
  allow_methods : list str;
  allow_headers : list str
}.

(** Values a handler returns, and [dict] with [str] keys. *)
Inductive value := VStr (s : str).
Abbreviation dict := (gmap (list N) value).

(** The function objects of the module that are bound to routes. *)
Inductive endpoint := health_fn.

Record route := {
  path : str;
  methods : list str;
  status_code : N;
  endpoint_of : endpoint
}.

Record FastAPI := {
  title : str;
  user_middleware : list CORSMiddleware;
  routes : list route
}.

(** [FastAPI(title=...)] *)
Definition FastAPI_new (t : str) : FastAPI :=
  {| title := t; user_middleware := []; routes := [] |}.

(** [app.add_middleware(cls, **options)]: the new entry goes to the front. *)
Definition add_middleware (a : FastAPI) (mw : CORSMiddleware) : FastAPI :=
  {| title := title a;
     user_middleware := mw :: user_middleware a;
     routes := routes a |}.

(** [@app.get(path)]: a route for the method GET, appended to the table; the
    response status of a route is 200 unless the decorator says otherwise. *)
Definition get (a : FastAPI) (p : str) (f : endpoint) : FastAPI :=
  {| title := title a;
     user_middleware := user_middleware a;
     routes := routes a ++
       [ {| path := p; methods := [lit "GET"]; status_code := 200;
            endpoint_of := f |} ] |}.

(** ** The module [main.py] *)

Definition comma : char := 0x2C.

Definition ALLOWED_ORIGINS : str := lit "ALLOWED_ORIGINS".
Definition default_origin : str := lit "http://localhost:3000".

(** The module's global names after import. *)
Record globals := {
  app : FastAPI;
  allowed : str;
  origins : list str
}.

(** [[o.strip() for o in pieces if o.strip()]] *)
Definition comprehension (pieces : list str) : list str :=
  flat_map (λ o, if truthy (strip o) then [strip o] else []) pieces.

(** The module body, statement by statement (lines 5 to 18). *)
Definition main (env : environ) : globals :=
  let app := FastAPI_new (lit "GTM Copilot API") in
  let allowed := getenv env (lit "ALLOWED_ORIGINS") (lit "http://localhost:3000") in
  let origins := comprehension (split comma allowed) in
  let app :=
    add_middleware app
      {| allow_origins := por origins [lit "http://localhost:3000"];
         allow_credentials := true;
         allow_methods := [lit "*"];
         allow_headers := [lit "*"] |} in
  let app := get app (lit "/health") health_fn in
  {| app := app; allowed := allowed; origins := origins |}.

(** The value of the expression [origins or ["http://localhost:3000"]] of
    line 12: the allow-list handed to the cross-origin policy. *)
Definition allow_list (env : environ) : list str :=
  por (origins (main env)) [lit "http://localhost:3000"].

(** A call either returns a value or raises. *)
Inductive outcome (A : Type) :=
  | Return (a : A)
  | Raise (e : str).
Arguments Return {A} a.
Arguments Raise {A} e.

(** [def health(): return {"status": "ok"}], run in the module state [g]. *)
Definition health (g : globals) : outcome dict * globals :=
  (Return {[ lit "status" := VStr (lit "ok") ]}, g).

Definition call (f : endpoint) (g : globals) : outcome dict * globals :=
  match f with
  | health_fn => health g
  end.

(** ** Serving a request

    The router takes the first route that matches the request's path and
    method; the handler's dictionary becomes a JSON response with the route's
    status.  A path that is known under another method only gives 405, an
    unknown path 404. *)

Record request := { req_method : str; req_path : str }.

Inductive body :=
  | JSON (d : dict)
  | Text (s : str).

Record response := { status : N; content : body }.

Definition detail (msg : str) : body := JSON {[ lit "detail" := VStr msg ]}.

Definition matches_path (rq : request) (r : route) : bool :=
  bool_decide (path r = req_path rq).
Definition matches (rq : request) (r : route) : bool :=
  matches_path rq r && bool_decide (req_method rq ∈ methods r).

Definition serve (g : globals) (rq : request) : response * globals :=
  match List.find (matches rq) (routes (app g)) with
  | Some r =>
      match call (endpoint_of r) g with
      | (Return d, g') => ({| status := status_code r; content := JSON d |}, g')
      | (Raise _, g') =>
          ({| status := 500; content := Text (lit "Internal Server Error") |}, g')
      end
  | None =>
      if existsb (matches_path rq) (routes (app g))
      then ({| status := 405; content := detail (lit "Method Not Allowed") |}, g)
      else ({| status := 404; content := detail (lit "Not Found") |}, g)
  end.

Definition GET_health : request :=
  {| req_method := lit "GET"; req_path := lit "/health" |}.

(** ** The allow-list as the specification words it *)

Definition nonempty (s : str) : Prop := s ≠ [].

Definition spec_allow_list (var : option str) : list str :=
  let s := default default_origin var in
  let kept := filter nonempty (strip <$> split comma s) in
  if decide (kept = []) then [default_origin] else kept.

(** [l.count(x)] *)
Definition count (x : str) (l : list str) : nat :=
  length (filter (λ y, y = x) l).

(** The first and the last character of [s] is whitespace. *)
Definition leading_space (s : str) : bool :=
  match head s with Some c => isspace c | None => false end.
Definition trailing_space (s : str) : bool :=
  match last s with Some c => isspace c | None => false end.

(** ** Notions used to state further properties of the allow-list *)

(** [sep.join(l)] for a separator of one character. *)
Fixpoint join (sep : char) (l : list str) : str :=
  match l with
  | [] => []
  | x :: l' =>
      match l' with
      | [] => x
      | _ => x ++ sep :: join sep l'
      end
  end.

(** [s.count(",")] *)
Definition commas (s : str) : nat :=
  length (filter (λ c, c = comma) s).

(** A string of whitespace only, and a string of commas and whitespace only. *)
Definition blank (s : str) : Prop := Forall (λ c, isspace c = true) s.
Definition stray (s : str) : Prop :=
  Forall (λ c, c = comma ∨ isspace c = true) s.

(** An entry in normal form: not empty, no comma, no whitespace at either
    end. *)
Definition clean (o : str) : Prop :=
  o ≠ [] ∧ (comma ∉ o) ∧ leading_space o = false ∧ trailing_space o = false.

(** ** Sanity checks on concrete inputs *)

Example split_empty : split comma (lit "") = [lit ""].
Proof. reflexivity. Qed.

Example split_three : split comma (lit "a,,b ") = [lit "a"; lit ""; lit "b "].
Proof. reflexivity. Qed.

Example split_trailing : split comma (lit "a,") = [lit "a"; lit ""].
Proof. reflexivity. Qed.

Example strip_both : strip (32 :: 9 :: lit "a b" ++ [10; 0xA0]) = lit "a b".
Proof. reflexivity. Qed.

Example allow_list_unset : allow_list ∅ = [default_origin].
Proof. vm_compute. reflexivity. Qed.

Example allow_list_dups :
  allow_list {[ ALLOWED_ORIGINS := lit "b , a,,b" ]} = [lit "b"; lit "a"; lit "b"].
Proof. vm_compute. reflexivity. Qed.

Example serve_other_path :
  status (serve (main ∅) {| req_method := lit "GET"; req_path := lit "/" |}).1 = 404.
Proof. vm_compute. reflexivity. Qed.

Example serve_post :
  status (serve (main ∅) {| req_method := lit "POST"; req_path := lit "/health" |}).1 = 405.
Proof. vm_compute. reflexivity. Qed.

(** ** Facts about [dropwhile], [strip] and [split] *)

Section dropwhile_facts.
Context {A : Type} (p : A → bool).

Lemma dropwhile_app (l : list A) :
  ∃ k, l = k ++ dropwhile p l ∧ Forall (λ x, p x = true) k.
Proof.
  induction l as [|x l [k [Hk Hall]]]; simpl.
  - by exists [].
  - destruct (p x) eqn:Hx.
    + exists (x :: k). split; [by rewrite <- app_comm_cons, <- Hk | by constructor].
    + by exists [].
Qed.

Lemma dropwhile_head (l : list A) :
  match head (dropwhile p l) with Some c => p c = false | None => True end.
Proof.
  induction l as [|x l IH]; simpl; [done|].
  destruct (p x) eqn:Hx; [done | by simpl].
Qed.

Lemma dropwhile_all (l : list A) :
  Forall (λ x, p x = true) l → dropwhile p l = [].
Proof. induction 1 as [|x l Hx _ IH]; simpl; [done | by rewrite Hx]. Qed.

Lemma dropwhile_sublist (l : list A) : dropwhile p l `sublist_of` l.
Proof.
  destruct (dropwhile_app l) as [k [Hk _]].
  rewrite Hk at 2. apply sublist_inserts_l. done.
Qed.

End dropwhile_facts.

Lemma lstrip_sublist s : lstrip s `sublist_of` s.
Proof. apply dropwhile_sublist. Qed.

(** [rstrip] keeps a prefix of the string. *)
Lemma rstrip_prefix s : ∃ k, s = rstrip s ++ k.
Proof.
  unfold rstrip. destruct (dropwhile_app isspace (reverse s)) as [k [Hk _]].
  exists (reverse k).
  rewrite <- reverse_app, <- Hk. by rewrite reverse_involutive.
Qed.

Lemma rstrip_sublist s : rstrip s `sublist_of` s.
Proof.
  destruct (rstrip_prefix s) as [k Hk]. rewrite Hk at 2.
  by apply sublist_inserts_r.
Qed.

Lemma strip_sublist s : strip s `sublist_of` s.
Proof.
  unfold strip. etrans; [apply rstrip_sublist | apply lstrip_sublist].
Qed.

Lemma strip_leading s : leading_space (strip s) = false.
Proof.
  unfold leading_space, strip.
  destruct (rstrip_prefix (lstrip s)) as [k Hk].
  pose proof (dropwhile_head isspace s) as Hh. fold (lstrip s) in Hh.
  destruct (rstrip (lstrip s)) as [|c r]; [done|].
  rewrite Hk in Hh. simpl in *. done.
Qed.

Lemma strip_trailing s : trailing_space (strip s) = false.
Proof.
  unfold trailing_space, strip, rstrip. rewrite last_reverse.
  pose proof (dropwhile_head isspace (reverse (lstrip s))) as Hh.
  by destruct (head _).
Qed.

Lemma strip_all_space s : Forall (λ c, isspace c = true) s → strip s = [].
Proof.
  intros H. unfold strip, lstrip. by rewrite dropwhile_all.
Qed.

Lemma split_not_nil sep s : split sep s ≠ [].
Proof.
  destruct s as [|c s]; simpl; [done|].
  destruct (c =? sep); [done|]. by destruct (split sep s).
Qed.

Lemma split_Forall (P : char → Prop) sep s :
  Forall P s → Forall (Forall P) (split sep s).
Proof.
  induction 1 as [|c s Hc _ IH]; simpl.
  - by repeat constructor.
  - destruct (c =? sep); [by constructor|].
    destruct (split sep s) as [|q qs]; [by repeat constructor|].
    inversion IH; subst. constructor; [by constructor | done].
Qed.

Lemma split_no_sep sep s : Forall (λ q, sep ∉ q) (split sep s).
Proof.
  induction s as [|c s IH]; simpl.
  - repeat constructor. apply not_elem_of_nil.
  - destruct (N.eqb_spec c sep) as [->|Hne].
    + constructor; [apply not_elem_of_nil | done].
    + destruct (split sep s) as [|q qs].
      * repeat constructor. rewrite list_elem_of_singleton. congruence.
      * inversion IH; subst. constructor; [|done].
        rewrite elem_of_cons. intros [?|?]; [congruence | done].
Qed.

(** ** Facts about the comprehension and the fallback *)

Lemma comprehension_filter ps :
  comprehension ps = filter nonempty (strip <$> ps).
Proof.
  induction ps as [|o ps IH]; [done|].
  rewrite fmap_cons, filter_cons, <- IH. unfold comprehension, nonempty. simpl.
  destruct (strip o); case_decide; done.
Qed.

Lemma comprehension_Forall (Q : str → Prop) ps :
  Forall (λ o, Q (strip o)) ps → Forall Q (comprehension ps).
Proof.
  induction 1 as [|o ps Ho _ IH]; [constructor|].
  unfold comprehension in *. simpl.
  destruct (truthy (strip o)); [by constructor | done].
Qed.

Lemma comprehension_nonempty ps : Forall nonempty (comprehension ps).
Proof.
  rewrite comprehension_filter. apply Forall_forall.
  intros x Hx. by apply list_elem_of_filter in Hx as [? _].
Qed.

Lemma comprehension_blank ps :
  Forall (Forall (λ c, isspace c = true)) ps → comprehension ps = [].
Proof.
  induction 1 as [|o ps Ho _ IH]; [done|].
  unfold comprehension in *. simpl. by rewrite (strip_all_space o Ho).
Qed.

Lemma por_cases (l d : list str) :
  por l d = if decide (l = []) then d else l.
Proof. by destruct l. Qed.

Lemma getenv_default env key d : getenv env key d = default d (env !! key).
Proof. unfold getenv. by destruct (env !! key). Qed.

Lemma origins_main env :
  origins (main env) =
  comprehension (split comma (default default_origin (env !! ALLOWED_ORIGINS))).
Proof. simpl. by rewrite getenv_default. Qed.

Lemma allowed_main env :
  allowed (main env) = default default_origin (env !! ALLOWED_ORIGINS).
Proof. simpl. by rewrite getenv_default. Qed.

Lemma allow_list_cases env :
  allow_list env
  = if decide (origins (main env) = []) then [default_origin]
    else origins (main env).
Proof. apply por_cases. Qed.

Lemma count_filter_nonempty x l :
  count x (filter nonempty l) = if decide (x = []) then 0%nat else count x l.
Proof.
  unfold count. induction l as [|y l IH]; simpl.
  - by case_decide.
  - rewrite !filter_cons. unfold nonempty at 1.
    repeat (case_decide; simplify_eq; simpl); rewrite ?filter_cons;
      repeat (case_decide; simplify_eq; simpl); auto with lia.
Qed.

Lemma default_origin_clean :
  (comma ∉ default_origin)
  ∧ leading_space default_origin = false
  ∧ trailing_space default_origin = false.
Proof. split; [|done]. apply (bool_decide_unpack _). by vm_compute. Qed.

(** ** The health operation *)

(** C1: every invocation of the health operation returns (it does not raise)
    a dictionary with exactly one key, [status], bound to the string [ok], and
    leaves the module state as it was; served as [GET /health] by the
    application the module builds, whatever the environment, it is a 200
    response with that dictionary as its JSON body and no change of state. *)
Theorem health_returns_status_ok (env : environ) (g : globals) :
  ∃ d : dict,
    health g = (Return d, g)
    ∧ dom d = {[ lit "status" ]}
    ∧ size d = 1%nat
    ∧ d !! lit "status" = Some (VStr (lit "ok"))
    ∧ serve (main env) GET_health
      = ({| status := 200; content := JSON d |}, main env).
Proof.
  exists {[ lit "status" := VStr (lit "ok") ]}.
  split; [done|]. split; [apply dom_singleton_L|].
  split; [apply map_size_singleton|]. split; [apply lookup_singleton_eq|].
  reflexivity.
Qed.

(** C7: two invocations of the health operation, in whatever states, give the
    same result, and an invocation leaves its state unchanged; so do two
    requests [GET /health] served one after the other. *)
Theorem health_idempotent (env : environ) (g1 g2 : globals) :
  (health g1).1 = (health g2).1
  ∧ (health g1).2 = g1
  ∧ (let '(r1, s1) := serve (main env) GET_health in
     let '(r2, s2) := serve s1 GET_health in
     r1 = r2 ∧ s1 = main env ∧ s2 = main env).
Proof. repeat split. Qed.

(** ** The cross-origin policy *)

(** C4: after the module body has run, the application carries one
    middleware entry, the CORS policy, whose permitted origins are exactly the
    derived allow-list, with credentials permitted and the wildcard for the
    methods and for the request headers. *)
Theorem cors_policy_configuration (env : environ) :
  user_middleware (app (main env))
  = [ {| allow_origins := allow_list env;
         allow_credentials := true;
         allow_methods := [lit "*"];
         allow_headers := [lit "*"] |} ].
Proof. reflexivity. Qed.

(** ** The allow-list *)

(** C2: the allow-list computed by the module is the one the specification
    describes: take the variable's value, or the default origin when it is
    absent; split on the comma, strip each piece, drop the pieces that are
    empty after stripping; an empty result is replaced by the default origin
    alone. *)
Theorem allow_list_refines_spec (env : environ) :
  allow_list env = spec_allow_list (env !! ALLOWED_ORIGINS).
Proof.
  unfold allow_list, spec_allow_list.
  rewrite origins_main, comprehension_filter. apply por_cases.
Qed.

(** C3: when [ALLOWED_ORIGINS] is unset, is the empty string, or is made of
    commas and whitespace only, the allow-list is the default origin alone. *)
Theorem allow_list_fallback (env : environ)
  (H : env !! ALLOWED_ORIGINS = None
       ∨ env !! ALLOWED_ORIGINS = Some []
       ∨ ∃ s, env !! ALLOWED_ORIGINS = Some s
              ∧ Forall (λ c, c = comma ∨ isspace c = true) s) :
  allow_list env = [default_origin].
Proof.
  unfold allow_list. rewrite origins_main.
  destruct H as [-> | [-> | [s [-> Hs]]]]; [done | done |].
  simpl. rewrite comprehension_blank; [done|].
  pose proof (split_Forall _ comma s Hs) as Hall.
  pose proof (split_no_sep comma s) as Hsep.
  revert Hall Hsep. generalize (split comma s). intros ps.
  rewrite !Forall_forall. intros Hall Hsep q Hq.
  specialize (Hall q Hq). specialize (Hsep q Hq).
  rewrite Forall_forall in Hall |- *. intros c Hc.
  destruct (Hall c Hc) as [-> | ?]; [done | done].
Qed.

Lemma allow_list_fallback_witness :
  allow_list {[ ALLOWED_ORIGINS := lit " , ,,  " ]} = [default_origin].
Proof.
  apply allow_list_fallback. right. right.
  exists (lit " , ,,  "). split; [apply lookup_singleton_eq|].
  repeat (constructor; [vm_compute; auto|]). constructor.
Defined.

(** C5: whatever the input string, the allow-list has no empty entry; the
    entries the comprehension keeps appear in the order of the stripped pieces
    of the input, every non-empty stripped piece as many times as it occurs
    there; and the allow-list is that sequence unless it is empty. *)
Theorem allow_list_order_duplicates (env : environ) :
  let stripped := strip <$> split comma (allowed (main env)) in
  ([] ∉ allow_list env)
  ∧ origins (main env) `sublist_of` stripped
  ∧ (∀ x, count x (origins (main env))
          = if decide (x = []) then 0%nat else count x stripped)
  ∧ allow_list env
    = if decide (origins (main env) = []) then [default_origin]
      else origins (main env).
Proof.
  intros stripped. unfold stripped.
  rewrite allow_list_cases, allowed_main, origins_main, comprehension_filter.
  repeat split.
  - case_decide as Hd.
    + rewrite list_elem_of_singleton. discriminate.
    + intros Hin. by apply list_elem_of_filter in Hin as [? _].
  - apply sublist_filter.
  - intros x. apply count_filter_nonempty.
Qed.

(** C6: with [ALLOWED_ORIGINS] set to ["https://a.com, https://b.com"], the
    allow-list is [["https://a.com", "https://b.com"]]. *)
Theorem allow_list_two_origins (env : environ) :
  allow_list (<[ ALLOWED_ORIGINS := lit "https://a.com, https://b.com" ]> env)
  = [lit "https://a.com"; lit "https://b.com"].
Proof.
  unfold allow_list. rewrite origins_main, lookup_insert_eq. reflexivity.
Qed.

(** C8: the allow-list passed to the cross-origin policy has at least one
    entry, whatever the environment. *)
Theorem allow_list_nonempty (env : environ) :
  allow_origins <$> user_middleware (app (main env)) = [allow_list env]
  ∧ (1 ≤ length (allow_list env))%nat.
Proof.
  split; [done|].
  unfold allow_list. destruct (origins (main env)); simpl; lia.
Qed.

(** C9: leaving [ALLOWED_ORIGINS] unset and setting it to the empty string
    give the same allow-list; unset, [getenv] supplies the default string and
    the comprehension keeps it; empty, the comprehension keeps nothing and the
    [or] supplies the default. *)
Theorem allow_list_unset_eq_empty (env : environ) :
  allow_list (delete ALLOWED_ORIGINS env)
  = allow_list (<[ ALLOWED_ORIGINS := [] ]> env)
  ∧ allowed (main (delete ALLOWED_ORIGINS env)) = default_origin
  ∧ origins (main (delete ALLOWED_ORIGINS env)) = [default_origin]
  ∧ allowed (main (<[ ALLOWED_ORIGINS := [] ]> env)) = []
  ∧ origins (main (<[ ALLOWED_ORIGINS := [] ]> env)) = []
  ∧ allow_list (<[ ALLOWED_ORIGINS := [] ]> env) = [default_origin].
Proof.
  unfold allow_list. rewrite !origins_main, !allowed_main.
  rewrite lookup_delete_eq, lookup_insert_eq. done.
Qed.

(** C10: no entry of the allow-list contains a comma, begins with a
    whitespace character or ends with one, whatever the environment. *)
Theorem allow_list_entries_clean (env : environ) :
  Forall (λ o, (comma ∉ o)
               ∧ leading_space o = false
               ∧ trailing_space o = false)
         (allow_list env).
Proof.
  rewrite allow_list_cases. case_decide as Hd.
  - constructor; [apply default_origin_clean | constructor].
  - rewrite origins_main. apply comprehension_Forall.
    eapply Forall_impl; [apply (split_no_sep comma)|].
    intros q Hq. simpl in Hq. split; [|split].
    + intros Hin. apply Hq. by apply (elem_of_sublist _ _ _ Hin (strip_sublist q)).
    + apply strip_leading.
    + apply strip_trailing.
Qed.

(** ** Further facts about [dropwhile], [strip], [split] and [join] *)

Section dropwhile_more.
Context {A : Type} (p : A → bool).

Lemma dropwhile_nil_inv (l : list A) :
  dropwhile p l = [] → Forall (λ x, p x = true) l.
Proof.
  intros H. destruct (dropwhile_app p l) as [k [Hk Hall]].
  rewrite H, app_nil_r in Hk. by subst.
Qed.

Lemma dropwhile_id (l : list A) :
  match head l with Some c => p c = false | None => True end →
  dropwhile p l = l.
Proof. destruct l as [|x l]; simpl; [done|]. by intros ->. Qed.

End dropwhile_more.

(** [strip] removes whitespace, and only from the two ends. *)
Lemma strip_decompose s :
  ∃ l r, s = l ++ strip s ++ r ∧ blank l ∧ blank r.
Proof.
  unfold strip, rstrip, lstrip.
  destruct (dropwhile_app isspace s) as [l [Hl Hbl]].
  destruct (dropwhile_app isspace (reverse (dropwhile isspace s)))
    as [k [Hk Hbk]].
  exists l, (reverse k). split; [|split; [done|]].
  - rewrite <- reverse_app, <- Hk, reverse_involutive. done.
  - unfold blank. by apply Forall_reverse.
Qed.

Lemma strip_nil_inv s : strip s = [] → blank s.
Proof.
  intros H. destruct (strip_decompose s) as [l [r [Hs [Hl Hr]]]].
  rewrite H in Hs. rewrite Hs. unfold blank in *. by apply Forall_app.
Qed.

Lemma strip_clean_id o :
  leading_space o = false → trailing_space o = false → strip o = o.
Proof.
  unfold leading_space, trailing_space. intros Hl Ht.
  unfold strip, rstrip, lstrip.
  rewrite (dropwhile_id isspace o); [|by destruct (head o)].
  rewrite dropwhile_id; [apply reverse_involutive|].
  rewrite head_reverse. by destruct (last o).
Qed.

Lemma split_app sep s1 s2 :
  split sep (s1 ++ sep :: s2) = split sep s1 ++ split sep s2.
Proof.
  induction s1 as [|c s1 IH]; simpl.
  - by rewrite N.eqb_refl.
  - rewrite IH. destruct (c =? sep); [done|].
    pose proof (split_not_nil sep s1). by destruct (split sep s1).
Qed.

Lemma split_no_sep_id sep s : sep ∉ s → split sep s = [s].
Proof.
  induction s as [|c s IH]; simpl; [done|].
  rewrite not_elem_of_cons. intros [Hne Hs].
  destruct (N.eqb_spec c sep); [congruence|]. by rewrite IH.
Qed.

Lemma split_join sep l :
  l ≠ [] → Forall (λ q, sep ∉ q) l → split sep (join sep l) = l.
Proof.
  intros Hne Hall. induction Hall as [|q l Hq Hall IH]; [done|].
  destruct l as [|q' l].
  - simpl. by apply split_no_sep_id.
  - change (join sep (q :: q' :: l)) with (q ++ sep :: join sep (q' :: l)).
    rewrite split_app, IH, split_no_sep_id; done.
Qed.

Lemma join_split sep s : join sep (split sep s) = s.
Proof.
  induction s as [|c s IH]; simpl; [done|].
  pose proof (split_not_nil sep s) as Hne.
  destruct (N.eqb_spec c sep) as [->|_].
  - destruct (split sep s); [done|]. simpl in *. by rewrite IH.
  - destruct (split sep s) as [|q [|q' qs]]; [done| |]; simpl in *.
    + by rewrite IH.
    + by rewrite <- IH.
Qed.

Lemma split_length s : length (split comma s) = S (commas s).
Proof.
  unfold commas. induction s as [|c s IH]; simpl; [done|].
  rewrite filter_cons. pose proof (split_not_nil comma s) as Hne.
  destruct (N.eqb_spec c comma) as [->|Hc].
  - rewrite decide_True by done. simpl. by rewrite IH.
  - rewrite decide_False by done. rewrite <- IH.
    by destruct (split comma s).
Qed.

Lemma join_Forall (P : char → Prop) sep l :
  P sep → Forall (Forall P) l → Forall P (join sep l).
Proof.
  intros Hsep. induction 1 as [|q l Hq Hall IH]; [constructor|].
  destruct l as [|q' l]; [done|].
  change (join sep (q :: q' :: l)) with (q ++ sep :: join sep (q' :: l)).
  apply Forall_app. split; [done|]. by constructor.
Qed.

Lemma blank_stray s : blank s → stray s.
Proof. intros H. eapply Forall_impl; [exact H|]. simpl. auto. Qed.

(** The pieces of a string of commas and whitespace are blank. *)
Lemma split_stray s : stray s → Forall blank (split comma s).
Proof.
  intros Hs.
  pose proof (split_Forall _ comma s Hs) as Hall.
  pose proof (split_no_sep comma s) as Hsep.
  revert Hall Hsep. generalize (split comma s). intros ps.
  rewrite !Forall_forall. intros Hall Hsep q Hq.
  specialize (Hall q Hq). specialize (Hsep q Hq).
  unfold blank. rewrite Forall_forall in Hall |- *. intros c Hc.
  destruct (Hall c Hc) as [-> | ?]; done.
Qed.

(** ** Further facts about the comprehension *)

Lemma comprehension_app ps qs :
  comprehension (ps ++ qs) = comprehension ps ++ comprehension qs.
Proof. unfold comprehension. apply flat_map_app. Qed.

Lemma comprehension_nil_inv ps : comprehension ps = [] → Forall blank ps.
Proof.
  induction ps as [|o ps IH]; [constructor|].
  unfold comprehension in *. simpl.
  destruct (strip o) eqn:Ho; simpl; [|done].
  intros H. constructor; [by apply strip_nil_inv | by apply IH].
Qed.

Lemma comprehension_clean_id l : Forall clean l → comprehension l = l.
Proof.
  induction 1 as [|o l [Hne [_ [Hl Ht]]] _ IH]; [done|].
  unfold comprehension in *. simpl. rewrite IH.
  rewrite (strip_clean_id o Hl Ht). by destruct o.
Qed.

Lemma comprehension_kept (Q : str → Prop) ps :
  Forall (λ o, strip o ≠ [] → Q (strip o)) ps → Forall Q (comprehension ps).
Proof.
  induction 1 as [|o ps Ho _ IH]; [constructor|].
  unfold comprehension in *. simpl.
  destruct (strip o) eqn:Hs; simpl; [done|].
  constructor; [by apply Ho | done].
Qed.

Lemma comprehension_length ps :
  (length (comprehension ps) ≤ length ps)%nat.
Proof.
  induction ps as [|o ps IH]; [done|].
  unfold comprehension in *. simpl.
  destruct (truthy (strip o)); simpl; lia.
Qed.

Lemma origins_insert env s :
  origins (main (<[ ALLOWED_ORIGINS := s ]> env))
  = comprehension (split comma s).
Proof. by rewrite origins_main, lookup_insert_eq. Qed.

Lemma origins_clean env : Forall clean (origins (main env)).
Proof.
  rewrite origins_main. apply comprehension_kept.
  eapply Forall_impl; [apply (split_no_sep comma)|].
  intros q Hq Hne. simpl in Hq. repeat split.
  - done.
  - intros Hin. apply Hq. by apply (elem_of_sublist _ _ _ Hin (strip_sublist q)).
  - apply strip_leading.
  - apply strip_trailing.
Qed.

Lemma default_origin_normal : clean default_origin.
Proof. split; [done|]. apply default_origin_clean. Qed.

Lemma allow_list_clean env : allow_list env ≠ [] ∧ Forall clean (allow_list env).
Proof.
  rewrite allow_list_cases. case_decide as Hd.
  - split; [done|]. constructor; [apply default_origin_normal | constructor].
  - split; [done | apply origins_clean].
Qed.

Lemma allow_list_of_clean env l :
  l ≠ [] → Forall clean l →
  allow_list (<[ ALLOWED_ORIGINS := join comma l ]> env) = l.
Proof.
  intros Hne Hall. rewrite allow_list_cases, origins_insert.
  rewrite split_join; [|done|].
  - rewrite comprehension_clean_id by done. by case_decide.
  - eapply Forall_impl; [exact Hall|]. by intros o [_ [? _]].
Qed.

Lemma main_lookup (env env' : environ) :
  env !! ALLOWED_ORIGINS = env' !! ALLOWED_ORIGINS → main env = main env'.
Proof.
  intros H. unfold main, getenv. unfold ALLOWED_ORIGINS in H. by rewrite H.
Qed.

(** ** Further properties of the allow-list *)

(** X1: a non-empty list of entries in normal form (not empty, no comma, no
    whitespace at either end), joined with commas and given as
    [ALLOWED_ORIGINS], is the allow-list, entry for entry: nothing else about
    an entry is examined. *)
Theorem allow_list_join_roundtrip (env : environ) (l : list str)
  (Hne : l ≠ []) (Hclean : Forall clean l) :
  allow_list (<[ ALLOWED_ORIGINS := join comma l ]> env) = l.
Proof. by apply allow_list_of_clean. Qed.

Lemma allow_list_join_roundtrip_witness :
  allow_list (<[ ALLOWED_ORIGINS :=
                   join comma [lit "https://a.com/x y"; lit "*"; lit "*"] ]> ∅)
  = [lit "https://a.com/x y"; lit "*"; lit "*"].
Proof.
  apply allow_list_join_roundtrip; [done|].
  repeat (constructor;
          [split; [done|]; split; [|done];
           apply (bool_decide_unpack _); by vm_compute|]).
  constructor.
Defined.

(** X2: the derivation is a normalisation: the allow-list joined with commas
    and given back as [ALLOWED_ORIGINS] yields the same allow-list, whatever
    the environment it came from. *)
Theorem allow_list_normal_form (env env' : environ) :
  allow_list (<[ ALLOWED_ORIGINS := join comma (allow_list env) ]> env')
  = allow_list env.
Proof.
  destruct (allow_list_clean env) as [Hne Hall].
  by apply allow_list_of_clean.
Qed.

(** X3: the entries are derived piece by piece: the origins of two strings
    put together with a comma between them are the origins of the first
    followed by the origins of the second. *)
Theorem origins_concat (env : environ) (s1 s2 : str) :
  origins (main (<[ ALLOWED_ORIGINS := s1 ++ comma :: s2 ]> env))
  = origins (main (<[ ALLOWED_ORIGINS := s1 ]> env))
    ++ origins (main (<[ ALLOWED_ORIGINS := s2 ]> env)).
Proof. by rewrite !origins_insert, split_app, comprehension_app. Qed.

(** X4: a segment made of commas and whitespace only, between two commas of
    the input, is dropped without a trace: origins and allow-list are those
    of the input without the segment. *)
Theorem stray_segment_ignored (env : environ) (s1 b s2 : str)
  (Hb : stray b) :
  origins (main (<[ ALLOWED_ORIGINS := s1 ++ comma :: b ++ comma :: s2 ]> env))
  = origins (main (<[ ALLOWED_ORIGINS := s1 ++ comma :: s2 ]> env))
  ∧ allow_list (<[ ALLOWED_ORIGINS := s1 ++ comma :: b ++ comma :: s2 ]> env)
    = allow_list (<[ ALLOWED_ORIGINS := s1 ++ comma :: s2 ]> env).
Proof.
  assert (origins (main (<[ ALLOWED_ORIGINS
                            := s1 ++ comma :: b ++ comma :: s2 ]> env))
          = origins (main (<[ ALLOWED_ORIGINS := s1 ++ comma :: s2 ]> env)))
    as Ho.
  { rewrite !origins_insert, !split_app, !comprehension_app.
    by rewrite (comprehension_blank (split comma b) (split_stray b Hb)). }
  split; [done|]. unfold allow_list. by rewrite Ho.
Qed.

Lemma stray_segment_ignored_witness :
  allow_list (<[ ALLOWED_ORIGINS := lit "a" ++ comma :: lit " ,, " ++ comma :: lit "b" ]> ∅)
  = allow_list (<[ ALLOWED_ORIGINS := lit "a" ++ comma :: lit "b" ]> ∅).
Proof.
  apply (stray_segment_ignored ∅ (lit "a") (lit " ,, ") (lit "b")).
  repeat (constructor; [vm_compute; auto|]). constructor.
Defined.

(** X5: the comprehension keeps nothing exactly when the input string is
    made of commas and whitespace only; any other character in the input
    gives at least one entry, so the default origin is not substituted. *)
Theorem origins_empty_iff_stray (env : environ) :
  origins (main env) = [] ↔ stray (allowed (main env)).
Proof.
  rewrite origins_main, allowed_main.
  generalize (default default_origin (env !! ALLOWED_ORIGINS)). intros s.
  split.
  - intros H%comprehension_nil_inv.
    rewrite <- (join_split comma s). apply join_Forall; [by left|].
    eapply Forall_impl; [exact H|]. apply blank_stray.
  - intros H. apply comprehension_blank. by apply split_stray.
Qed.

(** X6: every entry the comprehension keeps is a piece of the input, between
    two commas or the ends, from which whitespace at the two ends was taken
    away and nothing else. *)
Theorem origins_only_trimmed (env : environ) :
  Forall (λ o, ∃ l r, blank l ∧ blank r
                      ∧ l ++ o ++ r ∈ split comma (allowed (main env)))
         (origins (main env)).
Proof.
  rewrite origins_main, allowed_main.
  generalize (split comma (default default_origin (env !! ALLOWED_ORIGINS))).
  intros ps. apply comprehension_kept. apply Forall_forall. intros q Hq _.
  destruct (strip_decompose q) as [l [r [Hs [Hl Hr]]]].
  exists l, r. by rewrite <- Hs.
Qed.

(** X7: the allow-list has at most one entry more than the input string has
    commas. *)
Theorem allow_list_length_bound (env : environ) :
  (length (allow_list env) ≤ S (commas (allowed (main env))))%nat.
Proof.
  rewrite allow_list_cases. case_decide as Hd; [simpl; lia|].
  rewrite origins_main, allowed_main, <- split_length.
  apply comprehension_length.
Qed.

(** X8: only [ALLOWED_ORIGINS] is read: setting or removing any other
    variable of the environment changes nothing of what the module builds. *)
Theorem other_variables_ignored (env : environ) (k v : str)
  (Hk : k ≠ ALLOWED_ORIGINS) :
  main (<[ k := v ]> env) = main env ∧ main (delete k env) = main env.
Proof.
  split; apply main_lookup.
  - by rewrite lookup_insert_ne.
  - by rewrite lookup_delete_ne.
Qed.

Lemma other_variables_ignored_witness :
  main (<[ lit "PORT" := lit "8000" ]> ∅) = main ∅
  ∧ main (delete (lit "PORT") ∅) = main ∅.
Proof. apply other_variables_ignored. by vm_compute. Defined.

(** X9: splitting on the comma loses nothing and cuts at every comma: the
    pieces number one more than the commas, none holds a comma, and joined
    with commas they give the string back. *)
Theorem split_comma_roundtrip (s : str) :
  join comma (split comma s) = s
  ∧ length (split comma s) = S (commas s)
  ∧ Forall (λ q, comma ∉ q) (split comma s).
Proof.
  split; [apply join_split|]. split; [apply split_length | apply split_no_sep].
Qed.
